(** * AuthService (src/app/auth/services/auth.service.ts)

    A shallow embedding of the Angular authentication service: the two
    signals [_currentUser] and [_authStatus], the browser's [localStorage],
    the RxJS pipelines built by [login] and [checkAuthStatus], and the
    synchronous [logout].

    An [Observable] is a finite tree of the effects a subscription performs:
    HTTP requests, whose answers arrive in a later turn of the event loop,
    and synchronous state updates run by the operators' callbacks. *)

From stdpp Require Import base strings gmap list relations.

Local Open Scope string_scope.

(** ** JavaScript values

    The fragment of JavaScript values an HTTP error can carry.  [JsNumber]
    covers integral numbers only.  [JsError] is an instance of [Error]
    ([TypeError], ...), with its [name] and [message]. *)

#[local] Unset Elimination Schemes.
Inductive JsValue : Type :=
| JsUndefined
| JsNull
| JsBoolean (b : bool)
| JsNumber (z : Z)
| JsString (s : string)
| JsArray (items : list JsValue)
| JsObject (props : gmap string JsValue)
| JsError (name message : string).
#[local] Set Elimination Schemes.

(** The result of evaluating an expression: a value, or a thrown value. *)
Inductive Completion : Type :=
| Normal (v : JsValue)
| Throw (v : JsValue).

(** The [TypeError] raised by [v.k] when [v] is [undefined] or [null]
    (V8's wording). *)
Definition nullish_read (what k : string) : JsValue :=
  JsError "TypeError"
    ("Cannot read properties of " +:+ what +:+ " (reading '" +:+ k +:+ "')").

(** Property read [v.k].  Objects are looked up in their own properties, a
    missing one reads [undefined]; [undefined] and [null] throw.  The
    built-in properties of strings and arrays ([length], indices) are not
    modelled: the service reads [error] and [message] only, which none of
    them has. *)
Definition js_get (v : JsValue) (k : string) : Completion :=
  match v with
  | JsUndefined => Throw (nullish_read "undefined" k)
  | JsNull => Throw (nullish_read "null" k)
  | JsObject props => Normal (default JsUndefined (props !! k))
  | JsError name message =>
      if decide (k = "message") then Normal (JsString message)
      else if decide (k = "name") then Normal (JsString name)
      else Normal JsUndefined
  | JsBoolean _ | JsNumber _ | JsString _ | JsArray _ => Normal JsUndefined
  end.

(** [v.k1.k2] *)
Definition js_get2 (v : JsValue) (k1 k2 : string) : Completion :=
  match js_get v k1 with
  | Normal v1 => js_get v1 k2
  | Throw e => Throw e
  end.

(** An error value that carries a message: the message itself, a string, or
    an instance of [Error], which has one. *)
Definition carries_message (e : JsValue) : Prop :=
  match e with
  | JsString _ | JsError _ _ => True
  | _ => False
  end.

(** ** The authentication status (interfaces/auth-status.enum.ts) *)

(** Modelled from the spec: the enumeration [AuthStatus] of '../interfaces',
    whose three members the service uses. *)
Inductive AuthStatus : Type :=
| checking
| authenticated
| notAuthenticated.

#[global] Instance AuthStatus_eq_dec : EqDecision AuthStatus.
Proof. solve_decision. Defined.

(** ** HTTP *)

Inductive HttpMethod : Type := GET | POST.

(** The body [{ email, password }] of the login request. *)
Record Credentials : Type := { email : string; password : string }.

Record HttpRequest : Type := {
  method : HttpMethod;
  url : string;
  headers : gmap string string;
  body : option Credentials
}.

(** [new HttpHeaders().set(name, value)] *)
Definition HttpHeaders_set (name value : string) : gmap string string :=
  <[name := value]> ∅.

(** What a subscriber receives: one value followed by completion, or an
    error.  Every observable of the service is of this kind. *)
Inductive Notification (A : Type) : Type :=
| Next (a : A)
| Error (e : JsValue).
Arguments Next {A} a.
Arguments Error {A} e.

Section AuthService.

(** Modelled from the spec: the interface [User] of '../interfaces', an
    opaque record passed through unchanged. *)
Context {User : Type}.

(** [environment.baseUrl] *)
Context (baseUrl : string).

(** Modelled from the spec: [LoginResponse] and [CheckTokenResponse] of
    '../interfaces', both [{ user: User, token: string }]. *)
Record LoginResponse : Type := { user : User; token : string }.

(** How the server answers a request: a response of the declared type, or a
    failure whose error value (an [HttpErrorResponse] for HTTP failures) is
    handed to [catchError]. *)
Inductive HttpResult : Type :=
| HttpOk (response : LoginResponse)
| HttpFail (err : JsValue).

(** ** The mutable state: the two signals and the browser's storage *)

Record World : Type := {
  _currentUser : option User;
  _authStatus : AuthStatus;
  localStorage : gmap string string
}.

(** The public getters [currentUser] and [authStatus]. *)
Definition currentUser (w : World) : option User := _currentUser w.
Definition authStatus (w : World) : AuthStatus := _authStatus w.

(** Synchronous code: a state transformer over [World]. *)
Definition M (A : Type) : Type := World → A * World.

#[global] Instance M_ret : MRet M := λ A a w, (a, w).
#[global] Instance M_bind : MBind M :=
  λ A B f m w, let '(a, w') := m w in f a w'.

(** [this._currentUser.set(v)] *)
Definition _currentUser_set (v : option User) : M unit :=
  λ w, (tt, {| _currentUser := v;
               _authStatus := _authStatus w;
               localStorage := localStorage w |}).

(** [this._authStatus.set(v)] *)
Definition _authStatus_set (v : AuthStatus) : M unit :=
  λ w, (tt, {| _currentUser := _currentUser w;
               _authStatus := v;
               localStorage := localStorage w |}).

(** [localStorage.getItem(k)]: [null] when the key is absent. *)
Definition getItem (k : string) : M (option string) :=
  λ w, (localStorage w !! k, w).

(** [localStorage.setItem(k, v)], in a storage that has room for it (the
    quota exception is not modelled). *)
Definition setItem (k v : string) : M unit :=
  λ w, (tt, {| _currentUser := _currentUser w;
               _authStatus := _authStatus w;
               localStorage := <[k := v]> (localStorage w) |}).

(** [localStorage.removeItem(k)] *)
Definition removeItem (k : string) : M unit :=
  λ w, (tt, {| _currentUser := _currentUser w;
               _authStatus := _authStatus w;
               localStorage := delete k (localStorage w) |}).

(** ** Observables *)

#[local] Unset Elimination Schemes.
(** What a subscription does: deliver its notification, run synchronous
    code that says how to go on, or send a request and go on when the answer
    arrives. *)
Inductive Observable (A : Type) : Type :=
| Emit (n : Notification A)
| Act (m : World → Observable A * World)
| Request (req : HttpRequest) (k : HttpResult → Observable A).
#[local] Set Elimination Schemes.
Arguments Emit {A} n.
Arguments Act {A} m.
Arguments Request {A} req k.

(** Continue a subscription with what [h] does on its notification. *)
Fixpoint on_notification {A B} (o : Observable A)
    (h : Notification A → Observable B) : Observable B :=
  match o with
  | Emit n => h n
  | Act m => Act (λ w, let '(o', w') := m w in (on_notification o' h, w'))
  | Request req k => Request req (λ r, on_notification (k r) h)
  end.

(** [of(a)] *)
Definition rx_of {A} (a : A) : Observable A := Emit (Next a).

(** [throwError(factory)]: errors with what the factory returns, or with
    what it throws. *)
Definition throwError {A} (factory : unit → Completion) : Observable A :=
  Emit (Error (match factory tt with Normal v => v | Throw v => v end)).

(** The operator [map(f)], for a callback [f] with side effects. *)
Definition rx_map {A B} (f : A → M B) (o : Observable A) : Observable B :=
  on_notification o (λ n,
    match n with
    | Next a => Act (b ← f a; mret (Emit (Next b)))
    | Error e => Emit (Error e)
    end).

(** The operator [catchError(selector)]: on an error, runs the selector and
    subscribes to the observable it returns. *)
Definition catchError {A} (selector : JsValue → M (Observable A))
    (o : Observable A) : Observable A :=
  on_notification o (λ n,
    match n with
    | Next a => Emit (Next a)
    | Error e => Act (selector e)
    end).

(** [source.pipe(op1, op2)] *)
Definition pipe {A B C} (source : Observable A)
    (op1 : Observable A → Observable B) (op2 : Observable B → Observable C)
    : Observable C :=
  op2 (op1 source).

Definition answer (r : HttpResult) : Observable LoginResponse :=
  match r with
  | HttpOk response => Emit (Next response)
  | HttpFail err => Emit (Error err)
  end.

(** [this.http.post<LoginResponse>(url, body)] *)
Definition http_post (url : string) (body : Credentials)
    : Observable LoginResponse :=
  Request {| method := POST; url := url; headers := ∅; body := Some body |}
          answer.

(** [this.http.get<CheckTokenResponse>(url, { headers })] *)
Definition http_get (url : string) (headers : gmap string string)
    : Observable LoginResponse :=
  Request {| method := GET; url := url; headers := headers; body := None |}
          answer.

(** ** The service *)

Definition setAuthentication (user : User) (token : string) : M bool :=
  _currentUser_set (Some user);;
  _authStatus_set authenticated;;
  setItem "token" token;;
  mret true.

Definition login (email password : string) : Observable bool :=
  let url := baseUrl +:+ "/auth/login" in
  let body := {| email := email; password := password |} in
  pipe (http_post url body)
    (rx_map (λ '{| user := user; token := token |},
            setAuthentication user token))
    (catchError (λ err,
       mret (throwError (λ _, js_get2 err "error" "message")))).

Definition logout : M unit :=
  removeItem "token";;
  _currentUser_set None;;
  _authStatus_set notAuthenticated.

(** The token is read, and [logout] is run, when the method is called; the
    request is sent when the returned observable is subscribed to.  The
    test [!token] holds for [null] and for the empty string. *)
Definition checkAuthStatus : M (Observable bool) :=
  let url := baseUrl +:+ "/auth/check-token" in
  token ← getItem "token";
  match token with
  | None | Some "" =>
      logout;;
      mret (rx_of false)
  | Some token =>
      let headers := HttpHeaders_set "Authorization" ("Bearer " +:+ token) in
      mret (pipe (http_get url headers)
             (rx_map (λ '{| user := user; token := token |},
                     setAuthentication user token))
             (catchError (λ _,
                _authStatus_set notAuthenticated;;
                mret (rx_of false))))
  end.

(** ** Running a subscription *)

(** A subscription whose requests are answered at once by [backend]: the
    notification delivered, the state left behind, and the requests sent. *)
Fixpoint run {A} (backend : HttpRequest → HttpResult) (o : Observable A)
    (w : World) : Notification A * World * list HttpRequest :=
  match o with
  | Emit n => (n, w, [])
  | Act m => let '(o', w') := m w in run backend o' w'
  | Request req k =>
      let '(n, w', sent) := run backend (k (backend req)) w in
      (n, w', req :: sent)
  end.

(** [method().subscribe()] for a method that runs code before it returns
    its observable. *)
Definition call {A} (backend : HttpRequest → HttpResult)
    (method : M (Observable A)) (w : World)
    : Notification A * World * list HttpRequest :=
  let '(o, w') := method w in run backend o w'.

(** ** The event loop

    Requests are answered in later turns, in any order, while other methods
    of the service are called in between. *)

(** One turn of a subscription: the synchronous code up to the
    notification or to the next request. *)
Fixpoint advance {A} (o : Observable A) (w : World) : Observable A * World :=
  match o with
  | Act m => let '(o', w') := m w in advance o' w'
  | Emit _ | Request _ _ => (o, w)
  end.

(** The state of the application: the service's state and the subscriptions
    that wait for an answer. *)
Record Runtime : Type := {
  world : World;
  inflight : list (Observable bool)
}.

(** What a turn does, seen from outside. *)
Inductive Event : Type :=
| CallLogin (email password : string)
| CallCheckAuthStatus
| CallLogout
| Response (i : nat) (r : HttpResult).

(** How a turn ends for the operation it belongs to: [logout] has returned,
    the observable has delivered its notification, or a request is on its
    way. *)
Inductive Outcome : Type :=
| Returned
| Emitted (n : Notification bool)
| Waiting.

(** [o.subscribe()]: the first turn of the subscription, which then waits
    unless it has delivered its notification ([advance] stops at nothing
    else). *)
Definition subscribe (o : Observable bool) (rt : Runtime)
    : Runtime * Outcome :=
  let '(o', w') := advance o (world rt) in
  match o' with
  | Emit n => ({| world := w'; inflight := inflight rt |}, Emitted n)
  | Act _ | Request _ _ =>
      ({| world := w'; inflight := inflight rt ++ [o'] |}, Waiting)
  end.

(** [None]: no subscription waits at index [i]. *)
Definition exec (ev : Event) (rt : Runtime) : option (Runtime * Outcome) :=
  match ev with
  | CallLogin email password => Some (subscribe (login email password) rt)
  | CallCheckAuthStatus =>
      let '(o, w') := checkAuthStatus (world rt) in
      Some (subscribe o {| world := w'; inflight := inflight rt |})
  | CallLogout =>
      let '(_, w') := logout (world rt) in
      Some ({| world := w'; inflight := inflight rt |}, Returned)
  | Response i r =>
      match inflight rt !! i with
      | Some (Request _ k) =>
          Some (subscribe (k r)
                  {| world := world rt; inflight := delete i (inflight rt) |})
      | _ => None
      end
  end.

(** The field initialisers ([null], [checking]) followed by the
    constructor's [this.checkAuthStatus().subscribe()], in a browser whose
    storage holds [storage]. *)
Definition constructor (storage : gmap string string) : Runtime :=
  let w0 := {| _currentUser := None;
               _authStatus := checking;
               localStorage := storage |} in
  let '(o, w) := checkAuthStatus w0 in
  (subscribe o {| world := w; inflight := [] |}).1.

Definition step (rt rt' : Runtime) : Prop :=
  ∃ ev out, exec ev rt = Some (rt', out).

(** The states the application can be in after the construction of the
    service. *)
Definition reachable (storage : gmap string string) (rt : Runtime) : Prop :=
  rtc step (constructor storage) rt.

(** A sequence of turns; [None] when one of them cannot happen. *)
Fixpoint play (evs : list Event) (rt : Runtime) : option Runtime :=
  match evs with
  | [] => Some rt
  | ev :: evs' =>
      match exec ev rt with
      | Some (rt', _) => play evs' rt'
      | None => None
      end
  end.

(** [currentUser] is non-null if and only if [authStatus] is
    [authenticated]. *)
Definition session_invariant (w : World) : Prop :=
  currentUser w ≠ None ↔ authStatus w = authenticated.

(** ** What the two pipelines do *)

(** The request [login] sends. *)
Definition login_request (email password : string) : HttpRequest :=
  {| method := POST;
     url := baseUrl +:+ "/auth/login";
     headers := ∅;
     body := Some {| email := email; password := password |} |}.

(** The request [checkAuthStatus] sends for the stored token. *)
Definition check_request (token : string) : HttpRequest :=
  {| method := GET;
     url := baseUrl +:+ "/auth/check-token";
     headers := HttpHeaders_set "Authorization" ("Bearer " +:+ token);
     body := None |}.

(** What the callbacks of a waiting subscription do with an answer [r] in
    state [w]: [map]'s callback on a response, [login]'s [catchError] or
    [checkAuthStatus]'s [catchError] on a failure. *)
Inductive settles : HttpResult → World → Notification bool → World → Prop :=
| settles_authenticated u t w :
    settles (HttpOk {| user := u; token := t |}) w
            (Next true) (setAuthentication u t w).2
| settles_login_error err w :
    settles (HttpFail err) w
            (Error (match js_get2 err "error" "message" with
                    | Normal v | Throw v => v
                    end)) w
| settles_check_error err w :
    settles (HttpFail err) w
            (Next false) (_authStatus_set notAuthenticated w).2.

(** A subscription that waits for one answer and then settles. *)
Definition waiting_ok (o : Observable bool) : Prop :=
  ∃ req k, o = Request req k ∧
    ∀ r w, ∃ n w', advance (k r) w = (Emit n, w') ∧ settles r w n w'.

(** What one turn of the event loop does to the service's state. *)
Inductive effect : World → Event → Outcome → World → Prop :=
| effect_login_sent email password w :
    effect w (CallLogin email password) Waiting w
| effect_check_sent w :
    effect w CallCheckAuthStatus Waiting w
| effect_check_no_token w :
    effect w CallCheckAuthStatus (Emitted (Next false)) (logout w).2
| effect_logout w :
    effect w CallLogout Returned (logout w).2
| effect_response i r w n w' :
    settles r w n w' →
    effect w (Response i r) (Emitted n) w'.

(** Where a waiting subscription comes from: the observable of a [login],
    or the one [checkAuthStatus] returned when the storage held the
    non-empty token [tok]. *)
Definition from_login (o : Observable bool) : Prop :=
  ∃ email password, o = login email password.

Definition from_checkAuthStatus (tok : string) (o : Observable bool) : Prop :=
  tok ≠ "" ∧
  ∃ w, localStorage w !! "token" = Some tok ∧ checkAuthStatus w = (o, w).

(** The state the field initialisers build, before the constructor runs. *)
Definition initial (storage : gmap string string) : World :=
  {| _currentUser := None;
     _authStatus := checking;
     localStorage := storage |}.

(** * Properties *)

(** ** The synchronous methods *)

Lemma setAuthentication_spec user token w :
  setAuthentication user token w =
  (true, {| _currentUser := Some user;
            _authStatus := authenticated;
            localStorage := <["token" := token]> (localStorage w) |}).
Proof. reflexivity. Qed.

Lemma logout_spec w :
  logout w =
  (tt, {| _currentUser := None;
          _authStatus := notAuthenticated;
          localStorage := delete "token" (localStorage w) |}).
Proof. reflexivity. Qed.

(** ** The pipelines, answered at once *)

Lemma run_login backend email password w :
  run backend (login email password) w =
  match backend (login_request email password) with
  | HttpOk r =>
      (Next true, (setAuthentication (user r) (token r) w).2,
       [login_request email password])
  | HttpFail err =>
      (Error (match js_get2 err "error" "message" with
              | Normal v | Throw v => v
              end), w,
       [login_request email password])
  end.
Proof.
  unfold login, login_request, pipe, http_post. cbn.
  by destruct (backend _) as [[u t]|err].
Qed.

Lemma call_checkAuthStatus backend w :
  call backend checkAuthStatus w =
  match localStorage w !! "token" with
  | None | Some "" => (Next false, (logout w).2, [])
  | Some tok =>
      match backend (check_request tok) with
      | HttpOk r =>
          (Next true, (setAuthentication (user r) (token r) w).2,
           [check_request tok])
      | HttpFail _ =>
          (Next false, (_authStatus_set notAuthenticated w).2,
           [check_request tok])
      end
  end.
Proof.
  unfold call, checkAuthStatus, check_request, mbind, M_bind, getItem.
  destruct (localStorage w !! "token") as [[|c tok]|]; try reflexivity.
  unfold pipe, http_get. cbn.
  by destruct (backend _) as [[u t]|err].
Qed.

(** An empty string under the key counts as no token. *)
Lemma checkAuthStatus_falsy_token w :
  localStorage w !! "token" = None ∨ localStorage w !! "token" = Some "" →
  checkAuthStatus w = (rx_of false, (logout w).2).
Proof.
  unfold checkAuthStatus, mbind, M_bind, getItem.
  by intros [-> | ->].
Qed.

(** [run] is one turn followed by the run of what is left. *)
Lemma run_advance {A} backend (o : Observable A) w :
  run backend o w = let '(o', w') := advance o w in run backend o' w'.
Proof.
  revert o w. fix IH 1. intros [n | m | req k] w; simpl.
  - done.
  - destruct (m w) as [o' w']. apply IH.
  - done.
Qed.

(** ** The event loop *)

Lemma login_waiting_ok email password : waiting_ok (login email password).
Proof.
  eexists _, _. split; [reflexivity|].
  intros [[u t]|err] w; eexists _, _; (split; [reflexivity|]); constructor.
Qed.

Lemma subscribe_waiting o rt :
  waiting_ok o →
  subscribe o rt =
  ({| world := world rt; inflight := inflight rt ++ [o] |}, Waiting).
Proof. by intros (req & k & -> & _). Qed.

Lemma checkAuthStatus_cases w :
  checkAuthStatus w = (rx_of false, (logout w).2) ∨
  ∃ o, checkAuthStatus w = (o, w) ∧ waiting_ok o.
Proof.
  unfold checkAuthStatus, mbind, M_bind, getItem.
  destruct (localStorage w !! "token") as [[|c tok]|]; [by left| |by left].
  right. eexists. split; [reflexivity|].
  eexists _, _. split; [reflexivity|].
  intros [[u t]|err] w0; eexists _, _; (split; [reflexivity|]); constructor.
Qed.

Lemma exec_effect ev rt rt' out :
  Forall waiting_ok (inflight rt) →
  exec ev rt = Some (rt', out) →
  effect (world rt) ev out (world rt') ∧ Forall waiting_ok (inflight rt').
Proof.
  intros Hin Hex. destruct ev as [email password | | | i r]; simpl in Hex.
  - rewrite (subscribe_waiting _ _ (login_waiting_ok _ _)) in Hex.
    injection Hex as <- <-. split; [constructor|].
    apply Forall_app. eauto using login_waiting_ok.
  - destruct (checkAuthStatus_cases (world rt)) as [E | (o & E & Ho)];
      rewrite E in Hex.
    + injection Hex as <- <-. split; [constructor | done].
    + rewrite (subscribe_waiting _ _ Ho) in Hex.
      injection Hex as <- <-. split; [constructor|].
      apply Forall_app. eauto.
  - injection Hex as <- <-. split; [constructor | done].
  - destruct (inflight rt !! i) as [o|] eqn:Hi; [|done].
    pose proof (Forall_lookup_1 _ _ _ _ Hin Hi) as (req & k & -> & Hk).
    destruct (Hk r (world rt)) as (n & w' & Hadv & Hset).
    unfold subscribe in Hex. simpl in Hex. rewrite Hadv in Hex.
    injection Hex as <- <-. split; [by constructor|].
    simpl. by apply Forall_delete.
Qed.

Lemma constructor_cases storage :
  let w0 := {| _currentUser := None;
               _authStatus := checking;
               localStorage := storage |} in
  Forall waiting_ok (inflight (constructor storage)) ∧
  (world (constructor storage) = w0 ∨
   world (constructor storage) = (logout w0).2).
Proof.
  intros w0. unfold constructor. fold w0.
  destruct (checkAuthStatus_cases w0) as [E | (o & E & Ho)]; rewrite E.
  - split; [constructor | by right].
  - rewrite (subscribe_waiting _ _ Ho). split; [|by left].
    simpl. eauto.
Qed.

Lemma reachable_inflight storage rt :
  reachable storage rt → Forall waiting_ok (inflight rt).
Proof.
  unfold reachable. revert rt. apply rtc_ind_r.
  - apply constructor_cases.
  - intros rt rt' _ (ev & out & Hex) IH.
    by apply (exec_effect ev rt rt' out).
Qed.

Lemma play_rtc evs rt rt' : play evs rt = Some rt' → rtc step rt rt'.
Proof.
  revert rt. induction evs as [|ev evs IH]; intros rt; simpl.
  - by intros [= ->].
  - destruct (exec ev rt) as [[rt1 out]|] eqn:Hex; [|done].
    intros Hp. eapply rtc_l; [by exists ev, out | by apply IH].
Qed.

Lemma play_reachable storage evs rt :
  play evs (constructor storage) = Some rt → reachable storage rt.
Proof. apply play_rtc. Qed.

Lemma effect_authenticated_user w ev out w' :
  effect w ev out w' →
  (authStatus w = authenticated → currentUser w ≠ None) →
  authStatus w' = authenticated → currentUser w' ≠ None.
Proof.
  intros He Hw. destruct He as [| | | |i r w n w' Hs]; try done.
  by destruct Hs.
Qed.

(** What a turn does to the equivalence, whatever held before it. *)
Lemma effect_session w ev out w' :
  effect w ev out w' →
  match out with
  | Returned | Emitted (Next true) => session_invariant w'
  | Emitted (Next false) =>
      (ev = CallCheckAuthStatus ∧ session_invariant w') ∨
      (∃ i err, ev = Response i (HttpFail err) ∧
                authStatus w' = notAuthenticated ∧
                currentUser w' = currentUser w ∧
                localStorage w' = localStorage w)
  | Emitted (Error _) | Waiting => w' = w
  end.
Proof.
  unfold session_invariant.
  intros He. destruct He as [| | | |i r w n w' Hs]; try done.
  - by left.
  - destruct Hs as [u t w|err w|err w]; [done | done |].
    right. by exists i, err.
Qed.

Lemma effect_not_checking w ev out w' :
  effect w ev out w' →
  (authStatus w ≠ checking → authStatus w' ≠ checking) ∧
  (out ≠ Waiting → authStatus w' = checking →
   ∃ i err e, ev = Response i (HttpFail err) ∧ out = Emitted (Error e) ∧
              w' = w).
Proof.
  intros He. destruct He as [| | | |i r w n w' Hs]; try done.
  destruct Hs as [u t w|err w|err w]; [done | | done].
  split; [done|]. intros _ _. by eexists i, err, _.
Qed.

Lemma constructor_session_invariant storage :
  session_invariant (world (constructor storage)).
Proof.
  destruct (constructor_cases storage) as [_ [-> | ->]]; by split.
Qed.

Lemma reachable_authenticated_user storage rt :
  reachable storage rt →
  authStatus (world rt) = authenticated → currentUser (world rt) ≠ None.
Proof.
  unfold reachable. revert rt.
  apply (rtc_ind_r (λ rt, authStatus (world rt) = authenticated →
                          currentUser (world rt) ≠ None)).
  - apply constructor_session_invariant.
  - intros rt rt' Hr (ev & out & Hex) IH.
    destruct (exec_effect ev rt rt' out) as [He _];
      [by eapply reachable_inflight | done |].
    by eapply effect_authenticated_user.
Qed.

(** The two readings of a request agree: a subscription answered in the
    turn after it was made does what [run] does with that answer. *)
Lemma subscribe_then_answer o rt r n w' sent :
  waiting_ok o →
  run (λ _, r) o (world rt) = (n, w', sent) →
  exec (Response (length (inflight rt)) r) (subscribe o rt).1 =
  Some ({| world := w'; inflight := inflight rt |}, Emitted n).
Proof.
  intros Ho Hrun. rewrite (subscribe_waiting _ _ Ho).
  destruct Ho as (req & k & -> & Hk). simpl in *.
  rewrite lookup_app_r, Nat.sub_diag by done. simpl.
  destruct (Hk r (world rt)) as (n1 & w1 & Hadv & _).
  rewrite run_advance, Hadv in Hrun. simpl in Hrun.
  injection Hrun as <- <- _.
  unfold subscribe. simpl. rewrite Hadv. do 3 f_equal.
  rewrite delete_middle. apply app_nil_r.
Qed.

(** ** The claims *)

(** C1, amended.  In every state the application can be in after the
    construction of the service, [authStatus = authenticated] implies that
    [currentUser] is non-null.  The equivalence holds once the constructor
    has returned, and whatever held before a turn:
    - a [logout], a status check that finds no token and every answer that
      emits [true] (a successful login or verification) end with the
      equivalence;
    - a turn that only sends a request, and the failure of a [login],
      change nothing;
    - the answer to a failed verification sets [authStatus] to
      [notAuthenticated] and leaves [currentUser] and the storage as they
      were, so the equivalence holds after it exactly when there was no
      user. *)
Theorem session_invariant_except_failed_check storage rt :
  reachable storage rt →
  session_invariant (world (constructor storage)) ∧
  (authStatus (world rt) = authenticated → currentUser (world rt) ≠ None) ∧
  ∀ ev rt' out,
    exec ev rt = Some (rt', out) →
    match out with
    | Returned | Emitted (Next true) => session_invariant (world rt')
    | Emitted (Next false) =>
        (ev = CallCheckAuthStatus ∧ session_invariant (world rt')) ∨
        (∃ i err, ev = Response i (HttpFail err) ∧
                  authStatus (world rt') = notAuthenticated ∧
                  currentUser (world rt') = currentUser (world rt) ∧
                  localStorage (world rt') = localStorage (world rt) ∧
                  (session_invariant (world rt') ↔
                   currentUser (world rt) = None))
    | Emitted (Error _) | Waiting => world rt' = world rt
    end.
Proof.
  intros Hr. split; [apply constructor_session_invariant|].
  split; [by eapply reachable_authenticated_user|].
  intros ev rt' out Hex.
  destruct (exec_effect ev rt rt' out) as [He _];
    [by eapply reachable_inflight | done |].
  apply effect_session in He.
  destruct out as [|[[|]|e]|]; try done.
  destruct He as [He | (i & err & -> & Hs & Hu & Hl)]; [by left|].
  right. exists i, err. repeat (split; [done|]).
  unfold session_invariant. rewrite Hs, Hu.
  split; [intros [H _] | intros ->; by split].
  destruct (currentUser (world rt)); [by specialize (H ltac:(done)) | done].
Qed.

(** C8, amended.  After the construction of the service no turn sets
    [authStatus] back to [checking]: a turn that starts with another status
    ends with another status, and a turn that completes an operation (a
    logout, an emitted value or error) ends with [authenticated] or
    [notAuthenticated], except the failure of a [login], which changes
    nothing and so leaves [checking] in place while the constructor's own
    status check is unanswered. *)
Theorem authStatus_never_back_to_checking storage rt ev rt' out :
  reachable storage rt →
  exec ev rt = Some (rt', out) →
  (authStatus (world rt) ≠ checking → authStatus (world rt') ≠ checking) ∧
  (out ≠ Waiting → authStatus (world rt') = checking →
   ∃ i err e, ev = Response i (HttpFail err) ∧ out = Emitted (Error e) ∧
              world rt' = world rt).
Proof.
  intros Hr Hex.
  destruct (exec_effect ev rt rt' out) as [He _];
    [by eapply reachable_inflight | done |].
  by apply effect_not_checking.
Qed.

(** C2.  A successful [login]: when the server answers the login request
    with a pair (user, token), the observable emits [true], [currentUser] is
    that user, [authStatus] is [authenticated] and the storage holds that
    token under the key 'token' (its other keys are untouched). *)
Theorem login_success backend email password w u t :
  backend (login_request email password) = HttpOk {| user := u; token := t |} →
  ∃ w', run backend (login email password) w =
          (Next true, w', [login_request email password]) ∧
        currentUser w' = Some u ∧
        authStatus w' = authenticated ∧
        localStorage w' !! "token" = Some t ∧
        localStorage w' = <["token" := t]> (localStorage w).
Proof.
  intros Hb. rewrite run_login, Hb. eexists. split; [reflexivity|].
  simpl. by rewrite lookup_insert_eq.
Qed.

(** C3, amended.  A failing [login]: when the server answers the login
    request with a failure, the observable errors and the state (user,
    status, storage) is the one before the call.  The error is the value
    of [err.error.message], with no fallback:
    - the server's message string itself when the payload has one, and
      more generally the [message] property of an object payload, whatever
      it is, [undefined] when the object has none;
    - [undefined] when the payload is a text;
    - the [TypeError] raised by reading [message] when the payload is
      [null] or [undefined], and whatever reading [err.error] throws. *)
Theorem login_failure backend email password w err :
  backend (login_request email password) = HttpFail err →
  ∃ e, run backend (login email password) w =
         (Error e, w, [login_request email password]) ∧
       e = match js_get2 err "error" "message" with
           | Normal v | Throw v => v
           end ∧
       (∀ payload message,
          js_get err "error" = Normal payload →
          js_get payload "message" = Normal (JsString message) →
          e = JsString message) ∧
       (∀ props,
          js_get err "error" = Normal (JsObject props) →
          e = default JsUndefined (props !! "message")) ∧
       (∀ text,
          js_get err "error" = Normal (JsString text) →
          e = JsUndefined) ∧
       (js_get err "error" = Normal JsNull →
        e = JsError "TypeError"
              "Cannot read properties of null (reading 'message')") ∧
       (js_get err "error" = Normal JsUndefined →
        e = JsError "TypeError"
              "Cannot read properties of undefined (reading 'message')") ∧
       (∀ thrown, js_get err "error" = Throw thrown → e = thrown).
Proof.
  intros Hb. rewrite run_login, Hb. eexists. split; [reflexivity|].
  split; [reflexivity|]. unfold js_get2.
  split; [intros payload message Hp Hm; by rewrite Hp, Hm|].
  repeat split.
  - by intros props ->.
  - by intros text ->.
  - by intros ->.
  - by intros ->.
  - by intros thrown ->.
Qed.

(** C4.  A [checkAuthStatus] call that finds a token, sends the
    verification request and gets a failure for an answer, whatever the
    error: the observable emits [false] (it does not error), [authStatus] is
    [notAuthenticated], and [currentUser] and the storage, the token with
    it, are what they were before the call. *)
Theorem checkAuthStatus_failure backend w tok n w' req err :
  localStorage w !! "token" = Some tok →
  call backend checkAuthStatus w = (n, w', [req]) →
  backend req = HttpFail err →
  n = Next false ∧
  authStatus w' = notAuthenticated ∧
  currentUser w' = currentUser w ∧
  localStorage w' = localStorage w ∧
  localStorage w' !! "token" = Some tok ∧
  req = check_request tok.
Proof.
  intros Htok Hcall Hb. rewrite call_checkAuthStatus, Htok in Hcall.
  destruct tok as [|c tok]; [done|].
  destruct (backend (check_request _)) as [r|err'] eqn:Hb';
    injection Hcall as <- <- <-; [congruence|].
  by simpl.
Qed.

(** C5.  [checkAuthStatus] without a token: the method runs [logout] and
    returns [of(false)], an observable that sends no request; the call
    emits [false] and leaves no user, the status [notAuthenticated] and no
    token in the storage. *)
Theorem checkAuthStatus_no_token backend w :
  localStorage w !! "token" = None →
  checkAuthStatus w = (rx_of false, (logout w).2) ∧
  ∃ w', call backend checkAuthStatus w = (Next false, w', []) ∧
        w' = (logout w).2 ∧
        currentUser w' = None ∧
        authStatus w' = notAuthenticated ∧
        localStorage w' !! "token" = None.
Proof.
  intros Htok. split; [apply checkAuthStatus_falsy_token; by left|].
  rewrite call_checkAuthStatus, Htok. eexists. split; [reflexivity|].
  simpl. by rewrite lookup_delete_eq.
Qed.

(** C6.  After [logout], from any state, there is no current user, the
    status is [notAuthenticated] and the storage holds no token. *)
Theorem logout_end_state w :
  currentUser (logout w).2 = None ∧
  authStatus (logout w).2 = notAuthenticated ∧
  localStorage (logout w).2 !! "token" = None.
Proof. simpl. by rewrite lookup_delete_eq. Qed.

(** C7.  [logout] is idempotent: twice in a row is the same as once. *)
Theorem logout_idempotent w : (logout;; logout) w = logout w.
Proof.
  unfold mbind, M_bind. rewrite !logout_spec. simpl.
  by rewrite delete_delete_eq.
Qed.

(** C9.  A [checkAuthStatus] call that finds a token, sends the
    verification request and gets a pair (user, token) for an answer
    applies the update of a successful [login] with the same answer: from
    the same state both emit [true] and end in the same state, the one
    [setAuthentication] builds. *)
Theorem checkAuthStatus_success_as_login
    backend backend' email password w tok n w' req u t :
  localStorage w !! "token" = Some tok →
  call backend checkAuthStatus w = (n, w', [req]) →
  backend req = HttpOk {| user := u; token := t |} →
  backend' (login_request email password)
    = HttpOk {| user := u; token := t |} →
  n = Next true ∧
  run backend' (login email password) w
    = (n, w', [login_request email password]) ∧
  w' = (setAuthentication u t w).2 ∧
  currentUser w' = Some u ∧
  authStatus w' = authenticated ∧
  localStorage w' !! "token" = Some t.
Proof.
  intros Htok Hcall Hb Hb'. rewrite call_checkAuthStatus, Htok in Hcall.
  destruct tok as [|c tok]; [done|].
  rewrite run_login, Hb'.
  destruct (backend (check_request _)) as [r|err'] eqn:Hb1;
    injection Hcall as <- <- <-; [|congruence].
  rewrite Hb1 in Hb. injection Hb as ->. simpl.
  by rewrite lookup_insert_eq.
Qed.

(** C10.  [login] never emits [false]: whatever the server answers, the
    one notification of the observable is the value [true] or an error. *)
Theorem login_never_false backend email password w :
  ∃ n w' sent, run backend (login email password) w = (n, w', sent) ∧
               (n = Next true ∨ ∃ e, n = Error e).
Proof.
  rewrite run_login. destruct (backend _) as [r|err]; eauto 10.
Qed.

(** * Further properties *)

(** ** The shape of the two pipelines *)

Lemma login_shape email password :
  ∃ k, login email password = Request (login_request email password) k ∧
       ∀ r w, advance (k r) w =
              match r with
              | HttpOk resp =>
                  (Emit (Next true),
                   (setAuthentication (user resp) (token resp) w).2)
              | HttpFail err =>
                  (Emit (Error (match js_get2 err "error" "message" with
                                | Normal v | Throw v => v
                                end)), w)
              end.
Proof.
  eexists. split; [reflexivity|]. by intros [[u t]|err] w.
Qed.

Lemma checkAuthStatus_shape w tok :
  localStorage w !! "token" = Some tok →
  tok ≠ "" →
  ∃ k, checkAuthStatus w = (Request (check_request tok) k, w) ∧
       ∀ r w0, advance (k r) w0 =
               match r with
               | HttpOk resp =>
                   (Emit (Next true),
                    (setAuthentication (user resp) (token resp) w0).2)
               | HttpFail _ =>
                   (Emit (Next false),
                    (_authStatus_set notAuthenticated w0).2)
               end.
Proof.
  intros Htok Hne. unfold checkAuthStatus, mbind, M_bind, getItem.
  rewrite Htok. destruct tok as [|c tok]; [done|].
  eexists. split; [reflexivity|]. by intros [[u t]|err] w0.
Qed.

(** ** One operation *)

(** X1.  Whatever the state and the answer, a subscription to [login]
    sends one request: the POST of the credentials to /auth/login, with no
    header, so never the stored token.  What it emits does not depend on
    the state of the service. *)
Theorem login_sends_one_request backend email password w :
  ∃ n w' req,
    run backend (login email password) w = (n, w', [req]) ∧
    method req = POST ∧
    url req = baseUrl +:+ "/auth/login" ∧
    headers req = ∅ ∧
    body req = Some {| email := email; password := password |} ∧
    ∀ w0, (run backend (login email password) w0).1.1 = n.
Proof.
  rewrite run_login.
  destruct (backend (login_request email password)) as [r|err] eqn:Hb;
    eexists _, _, _; (split; [reflexivity|]); repeat split;
    intros w0; by rewrite run_login, Hb.
Qed.

(** X2.  [checkAuthStatus] sends a request exactly when the storage holds a
    non-empty token: then it sends one, the GET of /auth/check-token whose
    only header is [Authorization: Bearer <that token>]. *)
Theorem checkAuthStatus_sent backend w :
  match localStorage w !! "token" with
  | None | Some "" => (call backend checkAuthStatus w).2 = []
  | Some tok =>
      ∃ req, (call backend checkAuthStatus w).2 = [req] ∧
             method req = GET ∧
             url req = baseUrl +:+ "/auth/check-token" ∧
             headers req = {[ "Authorization" := "Bearer " +:+ tok ]} ∧
             body req = None
  end.
Proof.
  rewrite call_checkAuthStatus.
  destruct (localStorage w !! "token") as [[|c tok]|]; [done| |done].
  exists (check_request (String c tok)). split; [|done].
  by destruct (backend _).
Qed.

(** X3.  [checkAuthStatus] never errors: whatever the state and the
    answer, it emits a boolean.  The boolean is [true] exactly when a
    request was sent and answered with a response, and it tells the status
    the call leaves: [authenticated] for [true], [notAuthenticated] for
    [false]. *)
Theorem checkAuthStatus_never_errors backend w :
  ∃ b w' sent,
    call backend checkAuthStatus w = (Next b, w', sent) ∧
    (b = true ↔ ∃ req resp, sent = [req] ∧ backend req = HttpOk resp) ∧
    authStatus w' = (if b then authenticated else notAuthenticated).
Proof.
  rewrite call_checkAuthStatus.
  destruct (localStorage w !! "token") as [[|c tok]|].
  - eexists _, _, _. split; [reflexivity|]. split; [|done].
    split; [done | by intros (? & ? & ? & ?)].
  - destruct (backend (check_request _)) as [r|err] eqn:Hb;
      eexists _, _, _; (split; [reflexivity|]); (split; [|done]).
    + split; [eauto | done].
    + split; [done|]. intros (req & resp & [= <-] & Hb'). congruence.
  - eexists _, _, _. split; [reflexivity|]. split; [|done].
    split; [done | by intros (? & ? & ? & ?)].
Qed.

(** X4.  An empty string stored under 'token' is no token: the call sends
    nothing, emits [false] and ends like [logout], the empty entry
    removed. *)
Theorem checkAuthStatus_empty_string_token backend w :
  localStorage w !! "token" = Some "" →
  ∃ w', call backend checkAuthStatus w = (Next false, w', []) ∧
        w' = (logout w).2 ∧
        currentUser w' = None ∧
        authStatus w' = notAuthenticated ∧
        localStorage w' !! "token" = None.
Proof.
  intros Htok. rewrite call_checkAuthStatus, Htok.
  eexists. split; [reflexivity|]. simpl. by rewrite lookup_delete_eq.
Qed.

(** X5.  A successful [login] overwrites the session: the state it leaves
    depends on the state before only through the other keys of the
    storage, not through the previous user, status or token. *)
Theorem login_success_overwrites backend email password w1 w2 u t :
  backend (login_request email password) = HttpOk {| user := u; token := t |} →
  delete "token" (localStorage w1) = delete "token" (localStorage w2) →
  run backend (login email password) w1
  = run backend (login email password) w2.
Proof.
  intros Hb Hother. rewrite !run_login, Hb. simpl. do 3 f_equal.
  by rewrite <-(insert_delete_eq (localStorage w1)),
             <-(insert_delete_eq (localStorage w2)), Hother.
Qed.

(** X6.  A successful [login] followed by [logout] leaves what [logout]
    alone leaves. *)
Theorem login_then_logout backend email password w u t :
  backend (login_request email password) = HttpOk {| user := u; token := t |} →
  logout (run backend (login email password) w).1.2 = logout w.
Proof.
  intros Hb. rewrite run_login, Hb, !logout_spec. simpl.
  by rewrite delete_insert_eq.
Qed.

(** X7.  The token a successful [login] stores is the one the next
    [checkAuthStatus] presents, when it is not empty. *)
Theorem login_then_checkAuthStatus backend backend' email password w u t :
  backend (login_request email password) = HttpOk {| user := u; token := t |} →
  t ≠ "" →
  (call backend' checkAuthStatus
     (run backend (login email password) w).1.2).2
  = [check_request t].
Proof.
  intros Hb Hne. rewrite run_login, Hb, call_checkAuthStatus. simpl.
  rewrite lookup_insert_eq. destruct t as [|c t]; [done|].
  by destruct (backend' _).
Qed.

(** X8.  When the server answers a [login] with an empty token, the user is
    signed in, but the next [checkAuthStatus] signs them out without asking
    the server. *)
Theorem login_empty_token_then_checkAuthStatus
    backend backend' email password w u :
  backend (login_request email password)
    = HttpOk {| user := u; token := "" |} →
  ∃ w1, run backend (login email password) w
          = (Next true, w1, [login_request email password]) ∧
        currentUser w1 = Some u ∧
        authStatus w1 = authenticated ∧
        call backend' checkAuthStatus w1 = (Next false, (logout w).2, []).
Proof.
  intros Hb. rewrite run_login, Hb. eexists. split; [reflexivity|].
  split; [done|]. split; [done|].
  rewrite call_checkAuthStatus. simpl. rewrite lookup_insert_eq.
  by rewrite delete_insert_eq.
Qed.

(** X9.  A failed verification keeps the token, so the next
    [checkAuthStatus] presents it again; when that one succeeds the state
    is the one a first success would have left. *)
Theorem checkAuthStatus_retry backend backend' w tok err u t :
  localStorage w !! "token" = Some tok →
  tok ≠ "" →
  backend (check_request tok) = HttpFail err →
  backend' (check_request tok) = HttpOk {| user := u; token := t |} →
  call backend' checkAuthStatus (call backend checkAuthStatus w).1.2
  = (Next true, (setAuthentication u t w).2, [check_request tok]).
Proof.
  intros Htok Hne Hb Hb'. rewrite (call_checkAuthStatus backend), Htok.
  destruct tok as [|c tok]; [done|]. rewrite Hb. simpl.
  rewrite call_checkAuthStatus. simpl. by rewrite Htok, Hb'.
Qed.

(** X10.  A failed [login] whose error has no payload ([err.error] is
    [null] or [undefined], or [err] has no such property) does not carry a
    message: reading [message] throws, and the observable errors with that
    [TypeError].  The state is unchanged. *)
Theorem login_failure_no_payload backend email password w err :
  backend (login_request email password) = HttpFail err →
  (∀ payload, js_get err "error" = Normal payload →
              payload = JsNull ∨ payload = JsUndefined) →
  ∃ message, run backend (login email password) w =
               (Error (JsError "TypeError" message), w,
                [login_request email password]).
Proof.
  intros Hb Hp. rewrite run_login, Hb. unfold js_get2.
  destruct (js_get err "error") as [payload|e] eqn:Hget.
  - destruct (Hp payload eq_refl) as [-> | ->]; by eexists.
  - destruct err; simpl in Hget; try done;
      try (injection Hget as <-; by eexists).
Qed.

(** ** The event loop, again *)

Lemma effect_storage_frame w ev out w' k :
  effect w ev out w' →
  k ≠ "token" →
  localStorage w' !! k = localStorage w !! k.
Proof.
  intros He Hk. destruct He as [| | | |i r w n w' Hs]; try done.
  - simpl. by rewrite lookup_delete_ne.
  - simpl. by rewrite lookup_delete_ne.
  - destruct Hs; try done. simpl. by rewrite lookup_insert_ne.
Qed.

Lemma effect_user_token w ev out w' :
  effect w ev out w' →
  (currentUser w ≠ None → is_Some (localStorage w !! "token")) →
  currentUser w' ≠ None → is_Some (localStorage w' !! "token").
Proof.
  intros He Hw. destruct He as [| | | |i r w n w' Hs]; try done.
  destruct Hs; try done. intros _. simpl. rewrite lookup_insert_eq. eauto.
Qed.

Lemma waiting_from_login o : from_login o → waiting_ok o.
Proof. intros (email & password & ->). apply login_waiting_ok. Qed.

Lemma from_checkAuthStatus_shape tok o :
  from_checkAuthStatus tok o →
  ∃ k, o = Request (check_request tok) k ∧
       ∀ r w0, advance (k r) w0 =
               match r with
               | HttpOk resp =>
                   (Emit (Next true),
                    (setAuthentication (user resp) (token resp) w0).2)
               | HttpFail _ =>
                   (Emit (Next false),
                    (_authStatus_set notAuthenticated w0).2)
               end.
Proof.
  intros (Hne & w & Htok & Hc).
  destruct (checkAuthStatus_shape w tok Htok Hne) as (k & Hc' & Hk).
  exists k. split; [congruence | done].
Qed.

Lemma exec_origin ev rt rt' out :
  Forall waiting_ok (inflight rt) →
  Forall (λ o, from_login o ∨ ∃ tok, from_checkAuthStatus tok o)
         (inflight rt) →
  exec ev rt = Some (rt', out) →
  Forall (λ o, from_login o ∨ ∃ tok, from_checkAuthStatus tok o)
         (inflight rt').
Proof.
  intros Hok Hin Hex. destruct ev as [email password | | | i r]; simpl in Hex.
  - rewrite (subscribe_waiting _ _ (login_waiting_ok _ _)) in Hex.
    injection Hex as <- _. apply Forall_app. split; [done|].
    constructor; [|done]. left. by eexists _, _.
  - destruct (localStorage (world rt) !! "token") as [tok|] eqn:Htok.
    + destruct (decide (tok = "")) as [-> | Hne].
      * rewrite checkAuthStatus_falsy_token in Hex by (by right).
        by injection Hex as <- _.
      * destruct (checkAuthStatus_shape _ _ Htok Hne) as (k & Hc & _).
        rewrite Hc in Hex. injection Hex as <- _. apply Forall_app.
        split; [done|]. constructor; [|done]. right. exists tok.
        split; [done|]. eauto.
    + rewrite checkAuthStatus_falsy_token in Hex by (by left).
      by injection Hex as <- _.
  - by injection Hex as <- _.
  - destruct (inflight rt !! i) as [o|] eqn:Hi; [|done].
    pose proof (Forall_lookup_1 _ _ _ _ Hok Hi) as (req & k & -> & Hk).
    destruct (Hk r (world rt)) as (n & w' & Hadv & _).
    unfold subscribe in Hex. simpl in Hex. rewrite Hadv in Hex.
    injection Hex as <- _. simpl. by apply Forall_delete.
Qed.

Lemma constructor_initial storage :
  constructor storage =
  let '(o, w) := checkAuthStatus (initial storage) in
  (subscribe o {| world := w; inflight := [] |}).1.
Proof. reflexivity. Qed.

Lemma reachable_origin storage rt :
  reachable storage rt →
  Forall (λ o, from_login o ∨ ∃ tok, from_checkAuthStatus tok o)
         (inflight rt).
Proof.
  unfold reachable. revert rt. apply rtc_ind_r.
  - rewrite constructor_initial.
    destruct (storage !! "token") as [tok|] eqn:Htok.
    + destruct (decide (tok = "")) as [-> | Hne].
      * rewrite checkAuthStatus_falsy_token by (by right). constructor.
      * destruct (checkAuthStatus_shape (initial storage) _ Htok Hne)
          as (k & Hc & _).
        rewrite Hc. simpl.
        constructor; [|done]. right. exists tok. split; [done|].
        by exists (initial storage).
    + rewrite checkAuthStatus_falsy_token by (by left). constructor.
  - intros rt rt' Hr (ev & out & Hex) IH.
    eapply exec_origin; [by eapply reachable_inflight | done | done].
Qed.

(** What the answer [r] to a request does, by the method of the request:
    the POST of a [login], the GET of a [checkAuthStatus]. *)
Lemma origin_answer o req k r w :
  from_login o ∨ (∃ tok, from_checkAuthStatus tok o) →
  o = Request req k →
  advance (k r) w =
  match r, method req with
  | HttpOk resp, _ =>
      (Emit (Next true), (setAuthentication (user resp) (token resp) w).2)
  | HttpFail err, POST =>
      (Emit (Error (match js_get2 err "error" "message" with
                    | Normal v | Throw v => v
                    end)), w)
  | HttpFail _, GET =>
      (Emit (Next false), (_authStatus_set notAuthenticated w).2)
  end.
Proof.
  intros [(email & password & ->) | (tok & Hck)] Ho.
  - destruct (login_shape email password) as (k0 & Hl & Hk).
    rewrite Hl in Ho. injection Ho as <- <-. rewrite Hk. by destruct r.
  - destruct (from_checkAuthStatus_shape tok o Hck) as (k0 & -> & Hk).
    injection Ho as <- <-. rewrite Hk. by destruct r.
Qed.

Lemma reachable_checking storage rt :
  reachable storage rt →
  authStatus (world rt) = checking →
  world rt = initial storage ∧
  ∃ tok k rest,
    storage !! "token" = Some tok ∧ tok ≠ "" ∧
    inflight rt = Request (check_request tok) k :: rest.
Proof.
  unfold reachable. revert rt.
  apply (rtc_ind_r (λ rt,
    authStatus (world rt) = checking →
    world rt = initial storage ∧
    ∃ tok k rest,
      storage !! "token" = Some tok ∧ tok ≠ "" ∧
      inflight rt = Request (check_request tok) k :: rest)).
  - rewrite constructor_initial.
    destruct (storage !! "token") as [tok|] eqn:Htok.
    + destruct (decide (tok = "")) as [-> | Hne].
      * by rewrite checkAuthStatus_falsy_token by (by right).
      * destruct (checkAuthStatus_shape (initial storage) _ Htok Hne)
          as (k & Hc & _).
        rewrite Hc. simpl. intros _. split; [done|]. by exists tok, k, [].
    + by rewrite checkAuthStatus_falsy_token by (by left).
  - intros rt rt' Hr (ev & out & Hex) IH Hchk.
    pose proof (reachable_inflight storage rt Hr) as Hok.
    pose proof (reachable_origin storage rt Hr) as Horig.
    destruct (exec_effect ev rt rt' out Hok Hex) as [He _].
    assert (authStatus (world rt) = checking) as Hbefore.
    { destruct (decide (authStatus (world rt) = checking)) as [|Hn]; [done|].
      by destruct (proj1 (effect_not_checking _ _ _ _ He) Hn). }
    destruct (IH Hbefore) as (Hw & tok & k & rest & Htok & Hne & Hin).
    destruct ev as [email password | | | i r]; simpl in Hex.
    + rewrite (subscribe_waiting _ _ (login_waiting_ok _ _)) in Hex.
      injection Hex as <- _. simpl. split; [done|].
      rewrite Hin. by eexists tok, k, _.
    + assert (localStorage (world rt) !! "token" = Some tok) as Htok'
        by (by rewrite Hw).
      destruct (checkAuthStatus_shape _ _ Htok' Hne) as (k' & Hc & _).
      rewrite Hc in Hex. injection Hex as <- _. simpl. split; [done|].
      rewrite Hin. by eexists tok, k, _.
    + by injection Hex as <- _.
    + rewrite Hin in Hex, Hok, Horig. destruct i as [|j]; simpl in Hex.
      * apply Forall_cons in Horig as [Hhead _].
        pose proof (origin_answer _ _ _ r (world rt) Hhead eq_refl) as Hadv.
        unfold subscribe in Hex. simpl in Hex. rewrite Hadv in Hex.
        destruct r; injection Hex as <- _; done.
      * destruct (rest !! j) as [o|] eqn:Hj; [|done].
        apply Forall_cons in Hok as [_ Hok].
        pose proof (Forall_lookup_1 _ _ _ _ Hok Hj) as (req & k' & -> & Hk).
        destruct (Hk r (world rt)) as (n & w' & Hadv & Hs).
        unfold subscribe in Hex. simpl in Hex. rewrite Hadv in Hex.
        injection Hex as <- _. simpl in *.
        destruct Hs; try done. split; [done|]. by eexists tok, k, _.
Qed.

(** X11.  The service touches no key of the storage but 'token': in every
    state the application can be in, every other key holds what it held
    when the service was constructed. *)
Theorem other_keys_untouched storage rt k :
  reachable storage rt →
  k ≠ "token" →
  localStorage (world rt) !! k = storage !! k.
Proof.
  intros Hr Hk. revert rt Hr. unfold reachable. apply rtc_ind_r.
  - destruct (constructor_cases storage) as [_ [-> | ->]]; [done|].
    simpl. by rewrite lookup_delete_ne.
  - intros rt rt' Hr (ev & out & Hex) IH.
    destruct (exec_effect ev rt rt' out) as [He _];
      [by eapply reachable_inflight | done |].
    by rewrite (effect_storage_frame _ _ _ _ _ He Hk).
Qed.

(** X12.  In every state the application can be in, a current user comes
    with a stored token: the user is only ever set together with a token,
    and the token is only ever removed together with the user. *)
Theorem user_implies_token storage rt :
  reachable storage rt →
  currentUser (world rt) ≠ None →
  is_Some (localStorage (world rt) !! "token").
Proof.
  unfold reachable. revert rt.
  apply (rtc_ind_r (λ rt, currentUser (world rt) ≠ None →
                          is_Some (localStorage (world rt) !! "token"))).
  - by destruct (constructor_cases storage) as [_ [-> | ->]].
  - intros rt rt' Hr (ev & out & Hex) IH.
    destruct (exec_effect ev rt rt' out) as [He _];
      [by eapply reachable_inflight | done |].
    by eapply effect_user_token.
Qed.

(** X13.  What the constructor leaves.  Without a token (or with an empty
    one) it has run [logout]: no user, [notAuthenticated], no token, no
    request on its way.  With a token the state is the initial one, status
    [checking], and one request is on its way: the verification of that
    token. *)
Theorem constructor_spec storage :
  match storage !! "token" with
  | None | Some "" =>
      constructor storage =
      {| world := {| _currentUser := None;
                     _authStatus := notAuthenticated;
                     localStorage := delete "token" storage |};
         inflight := [] |}
  | Some tok =>
      world (constructor storage) = initial storage ∧
      ∃ k, inflight (constructor storage) = [Request (check_request tok) k]
  end.
Proof.
  rewrite constructor_initial.
  destruct (storage !! "token") as [tok|] eqn:Htok.
  - destruct tok as [|c tok].
    + by rewrite checkAuthStatus_falsy_token by (by right).
    + destruct (checkAuthStatus_shape (initial storage) _ Htok ltac:(done))
        as (k & Hc & _).
      rewrite Hc. simpl. eauto.
  - by rewrite checkAuthStatus_falsy_token by (by left).
Qed.

(** X14.  The status is [checking] only while the verification the
    constructor sent is unanswered: then that request is still the first
    one waiting, and nothing has been modified since the construction (no
    user, the storage as it was). *)
Theorem checking_only_while_unanswered storage rt :
  reachable storage rt →
  authStatus (world rt) = checking →
  currentUser (world rt) = None ∧
  localStorage (world rt) = storage ∧
  ∃ tok k, storage !! "token" = Some tok ∧ tok ≠ "" ∧
           inflight rt !! 0 = Some (Request (check_request tok) k).
Proof.
  intros Hr Hchk.
  destruct (reachable_checking storage rt Hr Hchk)
    as (-> & tok & k & rest & Htok & Hne & Hin).
  split; [done|]. split; [done|]. exists tok, k. by rewrite Hin.
Qed.

(** X15.  The answer to the constructor's verification ends the status
    [checking], however late it comes: a response signs the user in, a
    failure gives [notAuthenticated], and the turn emits the matching
    boolean. *)
Theorem first_answer_ends_checking storage rt r :
  reachable storage rt →
  authStatus (world rt) = checking →
  ∃ rt',
    exec (Response 0 r) rt
      = Some (rt', Emitted (Next (match r with
                                  | HttpOk _ => true
                                  | HttpFail _ => false
                                  end))) ∧
    authStatus (world rt')
      = match r with
        | HttpOk _ => authenticated
        | HttpFail _ => notAuthenticated
        end.
Proof.
  intros Hr Hchk.
  destruct (reachable_checking storage rt Hr Hchk)
    as (Hw & tok & k & rest & Htok & Hne & Hin).
  pose proof (reachable_origin storage rt Hr) as Horig.
  rewrite Hin in Horig. apply Forall_cons in Horig as [Hhead _].
  pose proof (origin_answer _ _ _ r (world rt) Hhead eq_refl) as Hadv.
  simpl. rewrite Hin. unfold subscribe. simpl. rewrite Hadv.
  destruct r; by eexists.
Qed.

(** X16.  [logout] does not cancel what is on its way: a response that
    arrives after it, to a [login] or to a status check sent before,
    signs the user in again. *)
Theorem logout_does_not_cancel storage rt i o u t :
  reachable storage rt →
  inflight rt !! i = Some o →
  ∃ rt1 rt2,
    exec CallLogout rt = Some (rt1, Returned) ∧
    authStatus (world rt1) = notAuthenticated ∧
    exec (Response i (HttpOk {| user := u; token := t |})) rt1
      = Some (rt2, Emitted (Next true)) ∧
    currentUser (world rt2) = Some u ∧
    authStatus (world rt2) = authenticated ∧
    localStorage (world rt2) !! "token" = Some t.
Proof.
  intros Hr Hi.
  pose proof (reachable_origin storage rt Hr) as Horig.
  pose proof (Forall_lookup_1 _ _ _ _ (reachable_inflight _ _ Hr) Hi)
    as (req & k & -> & _).
  pose proof (Forall_lookup_1 _ _ _ _ Horig Hi) as Ho.
  eexists _, _. split; [reflexivity|]. split; [done|]. simpl.
  rewrite Hi. unfold subscribe. simpl.
  rewrite (origin_answer _ _ _ _ _ Ho eq_refl). simpl.
  split; [reflexivity|]. simpl. by rewrite lookup_insert_eq.
Qed.

(** X17.  What the answer to a waiting request does, whenever it arrives,
    depends on the request alone.  A response signs the user in and emits
    [true].  A failure of the POST of a [login] is passed on as an error and
    changes nothing; a failure of the GET of a status check is swallowed:
    the turn emits [false] and sets [notAuthenticated].  So an error comes
    from a [login] only, and [false] from a status check only. *)
Theorem response_by_method storage rt i req k r :
  reachable storage rt →
  inflight rt !! i = Some (Request req k) →
  ∃ rt' n,
    exec (Response i r) rt = Some (rt', Emitted n) ∧
    inflight rt' = delete i (inflight rt) ∧
    (n, world rt') =
    match r, method req with
    | HttpOk resp, _ =>
        (Next true, (setAuthentication (user resp) (token resp) (world rt)).2)
    | HttpFail err, POST =>
        (Error (match js_get2 err "error" "message" with
                | Normal v | Throw v => v
                end), world rt)
    | HttpFail _, GET =>
        (Next false, (_authStatus_set notAuthenticated (world rt)).2)
    end.
Proof.
  intros Hr Hi.
  pose proof (Forall_lookup_1 _ _ _ _ (reachable_origin _ _ Hr) Hi) as Ho.
  simpl. rewrite Hi. unfold subscribe. simpl.
  rewrite (origin_answer _ _ _ r (world rt) Ho eq_refl).
  destruct r as [resp|err]; [|destruct (method req)]; by eexists _, _.
Qed.

End AuthService.

Arguments Emit {User A} n.
Arguments Act {User A} m.
Arguments Request {User A} req k.

(** * Scenarios

    The properties above at concrete inputs: a server at
    http://localhost:3000, the user [(1, "A")] and the token [tok1]. *)

Local Abbreviation base := "http://localhost:3000" (only parsing).
Local Abbreviation userA := (1, "A") (only parsing).

(** The answer of the server to a login or to a verification that
    succeeds. *)
Local Abbreviation ok := (HttpOk {| user := userA; token := "tok1" |})
  (only parsing).

(** A 401 answer: an [HttpErrorResponse] whose payload has a message. *)
Local Abbreviation unauthorized :=
  (HttpFail (JsObject {[
     "status" := JsNumber 401;
     "error" := JsObject {[ "message" := JsString "Not valid credentials" ]}
   ]})) (only parsing).

(** Nobody signed in, nothing stored. *)
Local Abbreviation signed_out :=
  {| _currentUser := None; _authStatus := notAuthenticated;
     localStorage := ∅ |} (only parsing).

(** The user signed in, with a token stored. *)
Local Abbreviation signed_in :=
  {| _currentUser := Some userA; _authStatus := authenticated;
     localStorage := {[ "token" := "old" ]} |} (only parsing).

(** C2 at the scenario of the specification: the stub answers the login of
    a@b.com with the user and [tok1]. *)
Lemma login_success_witness :
  ∃ w', run (λ _, ok) (login base "a@b.com" "secret") signed_out =
          (Next true, w', [login_request base "a@b.com" "secret"]) ∧
        currentUser w' = Some userA ∧
        authStatus w' = authenticated ∧
        localStorage w' !! "token" = Some "tok1" ∧
        localStorage w' = <["token" := "tok1"]> ∅.
Proof.
  apply (login_success base (λ _, ok) "a@b.com" "secret" signed_out).
  reflexivity.
Defined.

(** C3: a rejected login carries the message of the server. *)
Lemma login_failure_witness :
  ∃ e, run (λ _, unauthorized) (login base "a@b.com" "wrong") signed_in =
         (Error e, signed_in, [login_request base "a@b.com" "wrong"]) ∧
       e = JsString "Not valid credentials".
Proof.
  edestruct (login_failure base (λ _, unauthorized) "a@b.com" "wrong"
               signed_in) as (e & Hrun & _ & Hmsg & _); [reflexivity|].
  exists e. split; [exact Hrun|].
  by apply (Hmsg (JsObject {[ "message" := JsString "Not valid credentials" ]})).
Defined.

(** C3 fails when the payload has no message, as for a network failure,
    whose payload is an event: the error is [undefined], which carries no
    message, generic or not. *)
Lemma login_failure_counterexample :
  run (λ _, HttpFail (JsObject {[ "status" := JsNumber 0;
                                  "error" := JsObject ∅ ]}))
      (login (User := nat * string) base "a@b.com" "secret") signed_out
  = (Error JsUndefined, signed_out,
     [login_request base "a@b.com" "secret"]) ∧
  ¬ carries_message JsUndefined ∧
  ¬ ∀ backend email password (w : World (User := nat * string)) err,
      backend (login_request base email password) = HttpFail err →
      ∃ e, run backend (login base email password) w
             = (Error e, w, [login_request base email password]) ∧
           carries_message e.
Proof.
  split; [reflexivity|]. split; [by intros []|]. intros Hall.
  destruct (Hall (λ _, HttpFail (JsObject {[ "status" := JsNumber 0;
                                             "error" := JsObject ∅ ]}))
              "a@b.com" "secret" signed_out _ eq_refl)
    as (e & Hrun & Hmsg).
  injection Hrun as <-. destruct Hmsg.
Qed.

(** What a failed verification leaves of [signed_in]. *)
Local Abbreviation stale :=
  {| _currentUser := Some userA; _authStatus := notAuthenticated;
     localStorage := {[ "token" := "old" ]} |} (only parsing).

(** C4: a signed-in user whose token the server rejects. *)
Lemma checkAuthStatus_failure_witness :
  call (λ _, unauthorized) (checkAuthStatus base) signed_in
    = (Next false, stale, [check_request base "old"]) ∧
  authStatus stale = notAuthenticated ∧
  currentUser stale = currentUser signed_in ∧
  localStorage stale = localStorage signed_in ∧
  localStorage stale !! "token" = Some "old".
Proof.
  split; [reflexivity|].
  edestruct (checkAuthStatus_failure base (λ _, unauthorized) signed_in "old")
    as (_ & Hs & Hu & Hl & Ht & _); [reflexivity.. | done].
Defined.

(** C5: the second scenario of the specification, an empty storage. *)
Lemma checkAuthStatus_no_token_witness :
  ∃ w', call (λ _, ok) (checkAuthStatus base) signed_out =
          (Next false, w', []) ∧
        currentUser w' = None ∧
        authStatus w' = notAuthenticated ∧
        localStorage w' !! "token" = None.
Proof.
  edestruct (checkAuthStatus_no_token base (λ _, ok) signed_out)
    as (_ & w' & Hcall & _ & Hrest); [reflexivity|].
  by exists w'.
Defined.

(** C9: the verification of the token [old] answers with the user and a
    rotated token; a login with the same answer ends in the same state. *)
Lemma checkAuthStatus_success_as_login_witness :
  ∃ n w',
    call (λ _, ok) (checkAuthStatus base) signed_in
      = (n, w', [check_request base "old"]) ∧
    n = Next true ∧
    run (λ _, ok) (login base "a@b.com" "secret") signed_in
      = (n, w', [login_request base "a@b.com" "secret"]) ∧
    localStorage w' !! "token" = Some "tok1".
Proof.
  eexists _, _. split; [reflexivity|].
  edestruct (checkAuthStatus_success_as_login base (λ _, ok) (λ _, ok)
               "a@b.com" "secret" signed_in "old")
    as (Hn & Hrun & _ & _ & _ & Htok); [reflexivity.. | done].
Defined.

(** What the error of a failed login is when the payload has no message.
    A network failure, whose payload is an event without one: [undefined]. *)
Example login_failure_without_message :
  (run (λ _, HttpFail (JsObject {[ "status" := JsNumber 0;
                                   "error" := JsObject ∅ ]}))
       (login (User := nat * string) base "a@b.com" "secret")
       signed_out).1.1
  = Error JsUndefined.
Proof. reflexivity. Qed.

(** No payload: reading [message] of [null] throws, and the observable
    errors with that [TypeError]. *)
Example login_failure_null_payload :
  (run (λ _, HttpFail (JsObject {[ "status" := JsNumber 500;
                                   "error" := JsNull ]}))
       (login (User := nat * string) base "a@b.com" "secret")
       signed_out).1.1
  = Error (JsError "TypeError"
             "Cannot read properties of null (reading 'message')").
Proof. reflexivity. Qed.

(** An empty string stored under 'token' is no token: no request is sent
    and the call ends like [logout]. *)
Example checkAuthStatus_empty_token :
  call (λ _, ok) (checkAuthStatus base)
    {| _currentUser := Some userA; _authStatus := authenticated;
       localStorage := {[ "token" := "" ]} |}
  = (Next false,
     {| _currentUser := None; _authStatus := notAuthenticated;
        localStorage := ∅ |},
     []).
Proof. reflexivity. Qed.

(** The service right after its construction in a browser that holds the
    token [old]: the status check is on its way, the status is [checking]. *)
Local Abbreviation booting :=
  (constructor (User := nat * string) base {[ "token" := "old" ]})
  (only parsing).

(** C1: the state after construction, and the turn in which the
    verification of [old] succeeds. *)
Lemma session_invariant_except_failed_check_witness :
  reachable base {[ "token" := "old" ]} booting ∧
  session_invariant (world booting) ∧
  ∃ rt', exec base (Response 0 ok) booting = Some (rt', Emitted (Next true)) ∧
         session_invariant (world rt').
Proof.
  assert (reachable base {[ "token" := "old" ]} booting) as Hr
    by apply rtc_refl.
  destruct (session_invariant_except_failed_check base _ booting Hr)
    as (Hinit & _ & Hturn).
  split; [exact Hr|]. split; [exact Hinit|].
  eexists. split; [reflexivity|].
  eapply (λ rt' Hex, Hturn (Response 0 ok) rt' (Emitted (Next true)) Hex).
  reflexivity.
Defined.

(** C1 fails after a failed verification: the user signs in, then a status
    check is answered by a failure; the user is still there and the status
    is [notAuthenticated]. *)
Lemma session_invariant_counterexample :
  world <$> play base
    [CallLogin "a@b.com" "secret"; Response 0 ok;
     CallCheckAuthStatus; Response 0 unauthorized]
    (constructor base ∅)
  = Some {| _currentUser := Some userA; _authStatus := notAuthenticated;
            localStorage := {[ "token" := "tok1" ]} |} ∧
  ¬ session_invariant
      {| _currentUser := Some userA; _authStatus := notAuthenticated;
         localStorage := {[ "token" := "tok1" ]} |} ∧
  ¬ ∀ storage rt,
      reachable (User := nat * string) base storage rt →
      session_invariant (world rt).
Proof.
  split; [reflexivity|]. split.
  - intros [H _]. by specialize (H ltac:(done)).
  - intros Hall.
    destruct (play base
      [CallLogin "a@b.com" "secret"; Response 0 ok;
       CallCheckAuthStatus; Response 0 unauthorized]
      (constructor base ∅)) as [rt|] eqn:Hplay; [|done].
    pose proof (Hall ∅ rt (play_reachable _ _ _ _ Hplay)) as [H _].
    injection Hplay as <-. by specialize (H ltac:(done)).
Qed.

(** C8: a logout in a browser that held no token, where the constructor
    has left the status [notAuthenticated]. *)
Lemma authStatus_never_back_to_checking_witness :
  authStatus (world (constructor (User := nat * string) base ∅)) ≠ checking ∧
  ∃ rt', exec base CallLogout (constructor (User := nat * string) base ∅)
           = Some (rt', Returned) ∧
         authStatus (world rt') ≠ checking.
Proof.
  split; [done|]. eexists. split; [reflexivity|].
  eapply (authStatus_never_back_to_checking base ∅ (constructor base ∅)
            CallLogout _ Returned); [apply rtc_refl | reflexivity | done].
Defined.

(** C8 fails for a login that is rejected while the constructor's status
    check is on its way: the login has completed, with an error, and the
    status is [checking]. *)
Lemma authStatus_checking_counterexample :
  (rt ← play base [CallLogin "a@b.com" "wrong"] booting;
   '(rt', out) ← exec base (Response 1 unauthorized) rt;
   Some (world rt', out))
  = Some ({| _currentUser := None; _authStatus := checking;
             localStorage := {[ "token" := "old" ]} |},
          Emitted (Error (JsString "Not valid credentials"))) ∧
  ¬ ∀ storage rt ev rt' out,
      reachable (User := nat * string) base storage rt →
      exec base ev rt = Some (rt', out) →
      out ≠ Waiting →
      authStatus (world rt') ≠ checking.
Proof.
  split; [reflexivity|]. intros Hall.
  destruct (play base [CallLogin "a@b.com" "wrong"] booting)
    as [rt|] eqn:Hplay; [|done].
  destruct (exec base (Response 1 unauthorized) rt)
    as [[rt' out]|] eqn:Hex; [|by injection Hplay as <-].
  apply (Hall _ rt _ rt' out (play_reachable _ _ _ _ Hplay) Hex);
    injection Hplay as <-; by injection Hex as <- <-.
Qed.

(** ** The further properties at concrete inputs *)

(** The user signed in, with an empty string stored as the token. *)
Local Abbreviation empty_token :=
  {| _currentUser := Some userA; _authStatus := authenticated;
     localStorage := {[ "token" := "" ]} |} (only parsing).

(** X4 *)
Lemma checkAuthStatus_empty_string_token_witness :
  ∃ w', call (λ _, ok) (checkAuthStatus base) empty_token
          = (Next false, w', []) ∧
        currentUser w' = None ∧
        localStorage w' !! "token" = None.
Proof.
  edestruct (checkAuthStatus_empty_string_token base (λ _, ok) empty_token)
    as (w' & Hcall & _ & Hu & _ & Ht); [reflexivity|].
  by exists w'.
Defined.

(** X5: the same login from a signed-in and from a signed-out state. *)
Lemma login_success_overwrites_witness :
  run (λ _, ok) (login base "a@b.com" "secret") signed_in
  = run (λ _, ok) (login base "a@b.com" "secret") signed_out.
Proof.
  apply (login_success_overwrites base (λ _, ok) "a@b.com" "secret"
           signed_in signed_out userA "tok1"); reflexivity.
Defined.

(** X6 *)
Lemma login_then_logout_witness :
  logout (run (λ _, ok) (login base "a@b.com" "secret") signed_out).1.2
  = logout signed_out.
Proof.
  apply (login_then_logout base (λ _, ok) "a@b.com" "secret" signed_out
           userA "tok1"); reflexivity.
Defined.

(** X7: the login stores [tok1], the status check presents it. *)
Lemma login_then_checkAuthStatus_witness :
  (call (λ _, unauthorized) (checkAuthStatus base)
     (run (λ _, ok) (login base "a@b.com" "secret") signed_out).1.2).2
  = [check_request base "tok1"].
Proof.
  apply (login_then_checkAuthStatus base (λ _, ok) (λ _, unauthorized)
           "a@b.com" "secret" signed_out userA "tok1"); [reflexivity | done].
Defined.

(** X8: a server that answers the login with an empty token. *)
Lemma login_empty_token_then_checkAuthStatus_witness :
  ∃ w1,
    run (λ _, HttpOk {| user := userA; token := "" |})
        (login base "a@b.com" "secret") signed_out
      = (Next true, w1, [login_request base "a@b.com" "secret"]) ∧
    authStatus w1 = authenticated ∧
    call (λ _, ok) (checkAuthStatus base) w1
      = (Next false, (logout signed_out).2, []).
Proof.
  edestruct (login_empty_token_then_checkAuthStatus base
               (λ _, HttpOk {| user := userA; token := "" |}) (λ _, ok)
               "a@b.com" "secret" signed_out userA)
    as (w1 & Hrun & _ & Hs & Hcall); [reflexivity|].
  by exists w1.
Defined.

(** X9: the token [old] is rejected, then accepted. *)
Lemma checkAuthStatus_retry_witness :
  call (λ _, ok) (checkAuthStatus base)
    (call (λ _, unauthorized) (checkAuthStatus base) signed_in).1.2
  = (Next true, (setAuthentication userA "tok1" signed_in).2,
     [check_request base "old"]).
Proof.
  eapply (checkAuthStatus_retry base (λ _, unauthorized) (λ _, ok)
            signed_in "old"); [reflexivity | done | reflexivity..].
Defined.

(** X10: a failure whose payload is [null]. *)
Lemma login_failure_no_payload_witness :
  ∃ message,
    run (λ _, HttpFail (JsObject {[ "error" := JsNull ]}))
        (login base "a@b.com" "secret") signed_in
    = (Error (JsError "TypeError" message), signed_in,
       [login_request base "a@b.com" "secret"]).
Proof.
  apply (login_failure_no_payload base
           (λ _, HttpFail (JsObject {[ "error" := JsNull ]}))
           "a@b.com" "secret" signed_in (JsObject {[ "error" := JsNull ]}));
    [reflexivity|].
  intros payload [= <-]. by left.
Defined.

(** A storage with a token and a key of another part of the application. *)
Local Abbreviation themed :=
  ({[ "token" := "old"; "theme" := "dark" ]} : gmap string string)
  (only parsing).

(** X11: a login, its answer and a logout, while the constructor's check
    waits; the other key is still there. *)
Lemma other_keys_untouched_witness :
  ∃ rt, play base [CallLogin "a@b.com" "secret"; Response 1 ok; CallLogout]
          (constructor (User := nat * string) base themed) = Some rt ∧
        localStorage (world rt) !! "theme" = Some "dark" ∧
        localStorage (world rt) !! "token" = None.
Proof.
  eexists. split; [reflexivity|]. split; [|reflexivity].
  rewrite (other_keys_untouched base themed _ "theme"); [reflexivity| |done].
  by apply (play_reachable base themed
              [CallLogin "a@b.com" "secret"; Response 1 ok; CallLogout]).
Defined.

(** X12: after a login that succeeded. *)
Lemma user_implies_token_witness :
  ∃ rt, play base [CallLogin "a@b.com" "secret"; Response 0 ok]
          (constructor (User := nat * string) base ∅) = Some rt ∧
        currentUser (world rt) = Some userA ∧
        is_Some (localStorage (world rt) !! "token").
Proof.
  eexists. split; [reflexivity|]. split; [reflexivity|].
  apply (user_implies_token base ∅); [|done].
  by apply (play_reachable base ∅
              [CallLogin "a@b.com" "secret"; Response 0 ok]).
Defined.

(** X14: right after the construction, with the token [old] stored. *)
Lemma checking_only_while_unanswered_witness :
  authStatus (world booting) = checking ∧
  currentUser (world booting) = None ∧
  localStorage (world booting) = {[ "token" := "old" ]} ∧
  ∃ tok k, ({[ "token" := "old" ]} : gmap string string) !! "token" = Some tok ∧
           tok ≠ "" ∧
           inflight booting !! 0 = Some (Request (check_request base tok) k).
Proof.
  split; [reflexivity|].
  apply (checking_only_while_unanswered base {[ "token" := "old" ]} booting);
    [apply rtc_refl | reflexivity].
Defined.

(** X15: the server rejects the token the browser held. *)
Lemma first_answer_ends_checking_witness :
  ∃ rt', exec base (Response 0 unauthorized) booting
           = Some (rt', Emitted (Next false)) ∧
         authStatus (world rt') = notAuthenticated.
Proof.
  apply (first_answer_ends_checking base {[ "token" := "old" ]} booting
           unauthorized); [apply rtc_refl | reflexivity].
Defined.

(** X16: a logout while the constructor's check waits, then its answer. *)
Lemma logout_does_not_cancel_witness :
  ∃ rt1 rt2,
    exec base CallLogout booting = Some (rt1, Returned) ∧
    authStatus (world rt1) = notAuthenticated ∧
    exec base (Response 0 ok) rt1 = Some (rt2, Emitted (Next true)) ∧
    currentUser (world rt2) = Some userA ∧
    authStatus (world rt2) = authenticated ∧
    localStorage (world rt2) !! "token" = Some "tok1".
Proof.
  eapply (logout_does_not_cancel base {[ "token" := "old" ]} booting 0);
    [apply rtc_refl | reflexivity].
Defined.

(** X17: the failure of the constructor's check is swallowed. *)
Lemma response_by_method_witness :
  ∃ rt' n,
    exec base (Response 0 unauthorized) booting = Some (rt', Emitted n) ∧
    inflight rt' = [] ∧
    (n, world rt')
    = (Next false,
       {| _currentUser := None; _authStatus := notAuthenticated;
          localStorage := {[ "token" := "old" ]} |}).
Proof.
  pose proof (λ k, response_by_method base {[ "token" := "old" ]} booting 0
                     (check_request base "old") k unauthorized) as Hanswer.
  edestruct Hanswer as (rt' & n & Hex & Hin & Hres);
    [apply rtc_refl | reflexivity |].
  exists rt', n. split; [exact Hex|]. split; [exact Hin | exact Hres].
Defined.
